(** * pt::optional<T> (optional.h): a shallow embedding and its properties

    The header defines one class template, [pt::optional<T>]: a flag
    [empty_] next to raw storage [char storage_[sizeof(T)]] in which a [T]
    is constructed with placement new and destroyed by an explicit
    destructor call.  The embedding keeps both members apart, so that
    "the flag agrees with the storage" is something to prove and not
    something the data type gives for free.

    Objects live in a heap indexed by addresses: member functions take
    [this] and [other] as addresses, which keeps aliasing ([a = a]) and the
    pointers [in] / [un] of [swap] as they are in the source.  Every member
    function is a computation in a small monad with four outcomes: normal
    return, an exception that propagates, undefined behaviour, and
    ill-formed: the function contains a construct that the language
    rejects when the function is instantiated, so that no program can
    call it.  Two rules of the language decide the latter for this header
    and are part of the embedding: [reinterpret_cast] may not cast away
    [const], and an unqualified name that names a class member is looked
    up no further. *)

From stdpp Require Import base option gmap list strings.
From Stdlib Require Import String ZArith.

Local Open Scope string_scope.

(** ** The contained type [T]

    [optional<T>] is generic: everything it does with a [T] goes through
    [T]'s own constructors, assignment, equality and destructor.  [T] is
    an object type that is not const-qualified (the move assignment of the
    class assigns to it).  [Args] stands for the argument packs of
    [emplace], given as values that refer to no storage of an [optional];
    [U] for the argument type of [value_or]; [E] for what [T]'s operations
    may throw. *)

Class TypeOps (T Args U E : Type) := {
  (** [sizeof(T)]; never zero in C++ *)
  sizeof_T : positive;
  (** [T{const T&}]: the copy, or the exception thrown *)
  T_copy : T → E + T;
  (** [T{T&&}]: what is left in the source, and the new object or the
      exception thrown *)
  T_move : T → T * (E + T);
  (** [T{std::forward<Args>(args)...}] *)
  T_construct : Args → E + T;
  (** the fallback of [value_or] after the conversions of its [return]:
      to the common type that the conditional operator gives its operands
      of types [U] and [const T], and from there to [T] *)
  T_convert : U → E + T;
  (** the contained value after the same two conversions (a copy when the
      common type is [T]) *)
  T_via_common : T → E + T;
  (** [dst = std::move(src)]: new [dst], what is left in [src], and the
      exception if one is thrown *)
  T_move_assign : T → T → (T * T) * option E;
  (** [a == b] *)
  T_eq : T → T → bool;
}.

(** Addresses of [optional<T>] objects. *)
Abbreviation loc := positive.

(** ** What the language accepts

    A member function of a class template is instantiated when it is
    used, as a whole.  Two rules reject members of this header. *)

(** Whether the object a member function runs on, and with it the member
    [storage_], is [const] there. *)
Inductive constness :=
| Mutable
| Const.

(** [reinterpret_cast] from a pointer to [from]-qualified [char] to a
    pointer to [to]-qualified [T]: it may add [const], it may not cast it
    away. *)
Definition reinterpret_cast_allowed (from to : constness) : bool :=
  match from, to with
  | Const, Mutable => false
  | _, _ => true
  end.

(** [operator*]: both overloads are [*reinterpret_cast<T*>(storage_)]
    (l.124 and l.128), the [const] one on a [const] array. *)
Definition star_well_formed (this_is : constness) : bool :=
  reinterpret_cast_allowed this_is Mutable.

(** [operator->]: the [const] overload is
    [reinterpret_cast<const T*>(storage_)] (l.116), the other one
    [reinterpret_cast<T*>(storage_)] (l.120). *)
Definition arrow_well_formed (this_is : constness) : bool :=
  reinterpret_cast_allowed this_is this_is.

(** [value]: both overloads return [**this] (l.139 and l.146), which is
    the [operator*] of the same constness. *)
Definition value_well_formed (this_is : constness) : bool :=
  star_well_formed this_is.

(** The members of [optional] that are named [swap], each given by its
    number of parameters: [void swap(optional &other)]. *)
Definition members_named_swap : list nat := [1].

(** A call by an unqualified name inside a member function, with
    [arguments] arguments, when the class has members of that name: the
    lookup stops at the class, argument-dependent lookup does not take
    place, and the call needs a member with as many parameters. *)
Definition member_call_viable (members : list nat) (arguments : nat) : bool :=
  existsb (Nat.eqb arguments) members.

Section machine.
Context {T E : Type}.

(** [char storage_[sizeof(T)]]: either raw bytes in which no [T] lives,
    or the bytes of a live [T] with abstract value [v]. *)
Inductive slot :=
| Dead
| Live (v : T).

(** The two data members of [class optional]. *)
Record optional := mk_optional {
  storage_ : slot;
  empty_ : bool;
}.

(** What is thrown: [bad_optional_access] (a [std::logic_error] built
    from [what_arg]) or whatever an operation of [T] throws. *)
Inductive exn :=
| bad_optional_access (what_arg : string)
| T_exception (e : E).

(** Lifetime events of [T] objects, in program order. *)
Inductive event :=
| Constructed (p : loc) (v : T)   (* placement new into [p->storage_] *)
| Destroyed (p : loc) (v : T)     (* [~T()] on the object in [p->storage_] *)
| MoveAssigned (p : loc) (v : T). (* [T::operator=(T&&)] on the live object *)

Record state := mk_state {
  heap : gmap loc optional;
  log : list event;
}.

Inductive outcome (A : Type) :=
| Done (a : A) (s : state)
| Thrown (e : exn) (s : state)
| Undefined
| Ill_formed.
Global Arguments Done {A} a s.
Global Arguments Thrown {A} e s.
Global Arguments Undefined {A}.
Global Arguments Ill_formed {A}.

Definition M (A : Type) : Type := state → outcome A.

Definition ret {A} (a : A) : M A := λ s, Done a s.

Definition bind {A B} (m : M A) (k : A → M B) : M B := λ s,
  match m s with
  | Done a s' => k a s'
  | Thrown e s' => Thrown e s'
  | Undefined => Undefined
  | Ill_formed => Ill_formed
  end.

Definition throw {A} (e : exn) : M A := λ s, Thrown e s.

Definition undef {A} : M A := λ _, Undefined.

Definition ill_formed {A} : M A := λ _, Ill_formed.

(** A member function whose body the language accepts runs that body;
    one whose body it rejects cannot be called, whichever path through the
    body a call would have taken. *)
Definition instantiated {A} (accepted : bool) (body : M A) : M A :=
  if accepted then body else ill_formed.

End machine.

Global Arguments slot : clear implicits.
Global Arguments optional : clear implicits.
Global Arguments exn : clear implicits.
Global Arguments event : clear implicits.
Global Arguments state : clear implicits.
Global Arguments outcome : clear implicits.
Global Arguments M : clear implicits.

Declare Scope opt_scope.
Delimit Scope opt_scope with opt.
Notation "x ← y ; z" := (bind y (λ x, z))
  (at level 20, y at level 100, z at level 200, only parsing) : opt_scope.
Notation "y ;; z" := (bind y (λ _, z))
  (at level 100, z at level 200, only parsing, right associativity) : opt_scope.

Section optional.
Context {T Args U E : Type} `{!TypeOps T Args U E}.
Local Open Scope opt_scope.

Local Abbreviation slot := (slot T).
Local Abbreviation optional := (optional T).
Local Abbreviation exn := (exn E).
Local Abbreviation event := (event T).
Local Abbreviation state := (state T).
Local Abbreviation outcome := (outcome T E).
Local Abbreviation M := (M T E).

(** *** Access to objects through their address *)

(** The object at [p]; using an address at which no [optional] lives is
    undefined. *)
Definition load (p : loc) : M optional := λ s,
  match heap s !! p with
  | Some o => Done o s
  | None => Undefined
  end.

Definition store (p : loc) (o : optional) : M unit := λ s,
  Done tt (mk_state (<[p := o]> (heap s)) (log s)).

Definition emit (ev : event) : M unit := λ s,
  Done tt (mk_state (heap s) (log s ++ [ev])).

(** [p->empty_] read and written. *)
Definition get_empty (p : loc) : M bool :=
  o ← load p; ret (empty_ o).

Definition set_empty (p : loc) (b : bool) : M unit :=
  o ← load p; store p (mk_optional (storage_ o) b).

(** [*reinterpret_cast<T*>(p->storage_)], that is [**p]: the [T] living
    in the storage.  There is none in raw storage: undefined. *)
Definition deref (p : loc) : M T :=
  o ← load p;
  match storage_ o with
  | Live v => ret v
  | Dead => undef
  end.

(** An operation of [T] changed the live object in [p->storage_] to [v]. *)
Definition update (p : loc) (v : T) : M unit :=
  o ← load p;
  match storage_ o with
  | Live _ => store p (mk_optional (Live v) (empty_ o))
  | Dead => undef
  end.

(** [new(p->storage_) T{...}] once the constructor of [T] has returned
    [v]: the bytes now hold [v], whatever they held before. *)
Definition placement_new (p : loc) (v : T) : M unit :=
  o ← load p;
  store p (mk_optional (Live v) (empty_ o)) ;;
  emit (Constructed p v).

(** [reinterpret_cast<T*>(p->storage_)->~T()]: ends the lifetime of the
    [T] living in the storage; undefined if there is none. *)
Definition destroy (p : loc) : M unit :=
  o ← load p;
  match storage_ o with
  | Live v => store p (mk_optional Dead (empty_ o)) ;; emit (Destroyed p v)
  | Dead => undef
  end.

(** The result of a constructor of [T], turned into a computation. *)
Definition constructed (r : E + T) : M T :=
  match r with
  | inr v => ret v
  | inl e => throw (T_exception e)
  end.

(** The optional exception of an assignment of [T]. *)
Definition raised (r : option E) : M unit :=
  match r with
  | None => ret tt
  | Some e => throw (T_exception e)
  end.

(** *** Lifetime of the [optional] objects themselves *)

(** A constructor of [optional] runs on fresh memory at [this]: the
    member initialiser sets [empty_], the storage is raw.  When the body
    throws, the object never existed and its memory is given back; no
    destructor runs. *)
Definition constructing (this : loc) (init_empty : M bool) (body : M unit) : M unit := λ s,
  match (e ← init_empty; store this (mk_optional Dead e) ;; body) s with
  | Done _ s' => Done tt s'
  | Thrown e s' => Thrown e (mk_state (delete this (heap s')) (log s'))
  | Undefined => Undefined
  | Ill_formed => Ill_formed
  end.

(** The memory of the object at [p] is released. *)
Definition release (p : loc) : M unit := λ s,
  Done tt (mk_state (delete p (heap s)) (log s)).

(** ** The member functions of [optional<T>] *)

(** [optional() noexcept : empty_{true} { }] and
    [optional(nullopt_t) noexcept : empty_{true} { }] *)
Definition optional_default (this : loc) : M unit :=
  constructing this (ret true) (ret tt).

(** [new(storage_) T{other.value()}] is written with the checked accessor
    [value], defined here first: [T & value()] (l.135-140).  Its [const]
    twin has the same text; what sets it apart is [value_well_formed].
    [value_on_empty] is the object it throws: [bad_optional_access{...}]
    with the literal of the source. *)
Definition value_on_empty : exn :=
  bad_optional_access "call value on empty object".

Definition value (this : loc) : M T :=
  e ← get_empty this;
  if e then throw value_on_empty
  else deref this.

(** [new(dst->storage_) T{std::move(r)}] where [r] refers to the live [T]
    of [src], whose value is [v]: the move constructor of [T] runs on it,
    leaves its residue in [src], and its result starts to live in [dst]. *)
Definition new_moved (dst src : loc) (v : T) : M unit :=
  update src (T_move v).1 ;;
  v' ← constructed (T_move v).2;
  placement_new dst v'.

(** [optional(const optional &other) : empty_{other.empty_}]
    [{ if (!empty_) { new(storage_) T{other.value()}; } }]
    [other] is a reference to [const], so the body names the [const]
    overload of [value]. *)
Definition optional_copy (this other : loc) : M unit :=
  instantiated (value_well_formed Const)
    (constructing this (get_empty other)
       (e ← get_empty this;
        if negb e then
          v ← value other;
          v' ← constructed (T_copy v);
          placement_new this v'
        else ret tt)).

(** [optional(optional &&other) : empty_{other.empty_}]
    [{ if (!empty_) { new(storage_) T{std::move(other.value())}; } }] *)
Definition optional_move (this other : loc) : M unit :=
  constructing this (get_empty other)
    (e ← get_empty this;
     if negb e then
       v ← value other;
       new_moved this other v
     else ret tt).

(** [optional(const T &val) : empty_{false} { new(storage_) T{val}; }] *)
Definition optional_of_value (this : loc) (val : T) : M unit :=
  constructing this (ret false)
    (v' ← constructed (T_copy val);
     placement_new this v').

(** [optional(in_place_t, Args&&... args) : empty_{false}]
    [{ new(storage_) T{std::forward<Args>(args)...}; }] *)
Definition optional_in_place (this : loc) (args : Args) : M unit :=
  constructing this (ret false)
    (v' ← constructed (T_construct args);
     placement_new this v').

(** [~optional() { if (!empty_ && sizeof(T)) { ...->~T(); } }] *)
Definition optional_dtor (this : loc) : M unit :=
  e ← get_empty this;
  if negb e && negb (Z.pos sizeof_T =? 0)%Z then destroy this
  else ret tt.

(** [optional & operator=(nullopt_t) noexcept] *)
Definition assign_nullopt (this : loc) : M unit :=
  e ← get_empty this;
  (if negb e then destroy this else ret tt) ;;
  set_empty this true.

(** [explicit operator bool() const noexcept { return !empty_; }] *)
Definition to_bool (o : optional) : bool := negb (empty_ o).

(** [template<class U> T value_or(U &&value) const]
    [{ return empty_ ? value : **this; }]
    The member is [const], so [**this] is the [const] overload of
    [operator*].  The conditional operator brings [value] and [**this] to
    their common type, and the [return] converts that to [T]. *)
Definition value_or (this : loc) (fallback : U) : M T :=
  instantiated (star_well_formed Const)
    (e ← get_empty this;
     if e then constructed (T_convert fallback)
     else
       v ← deref this;
       constructed (T_via_common v)).

(** The call [swap] of [**this] and [*other] (l.162).  The name is
    unqualified and used inside a member function of [optional], which
    has a member of that name: the candidates are [members_named_swap],
    the call passes two arguments, and none of the candidates takes two.
    No swap of [T] is among the candidates.  (What a member with two
    parameters would do is not in this header: [undef].) *)
Definition swap_values (p q : loc) : M unit :=
  instantiated (member_call_viable members_named_swap 2) undef.

(** [optional * in = empty_ ? this : &other;] *)
Definition swap_in (this other : loc) (this_empty : bool) : loc :=
  if this_empty then this else other.

(** [optional * un = empty_ ? &other : this;] *)
Definition swap_un (this other : loc) (this_empty : bool) : loc :=
  if this_empty then other else this.

(** [void swap(optional &other)], branch by branch: the second branch
    is the call [swap_values], the third the one for exactly one occupied
    side. *)
Definition swap (this other : loc) : M unit :=
  e ← get_empty this;
  eo ← get_empty other;
  if e && eo then ret tt
  else if negb e && negb eo then swap_values this other
  else
    let in_ := swap_in this other e in
    let un := swap_un this other e in
    v ← deref in_;
    new_moved un in_ v ;;
    destroy in_ ;;
    set_empty un false ;;
    set_empty in_ true.

(** A local [optional] at [tmp] goes out of scope: its destructor runs and
    its memory is released, at the end of the block as well as when an
    exception leaves the block. *)
Definition scoped {A} (tmp : loc) (body : M A) : M A := λ s,
  match body s with
  | Done a s' => (optional_dtor tmp ;; release tmp ;; ret a) s'
  | Thrown e s' => (optional_dtor tmp ;; release tmp ;; throw e) s'
  | Undefined => Undefined
  | Ill_formed => Ill_formed
  end.

(** [optional & operator=(const optional &other)]
    [{ optional tmp{other}; swap(tmp); return *this; }]
    The local [tmp] gets an address at which no object lives.  The first
    statement is the copy constructor. *)
Definition copy_assign (this other : loc) : M unit := λ s,
  let tmp := fresh (dom (heap s)) in
  (optional_copy tmp other ;;
   scoped tmp (swap this tmp)) s.

(** [*reinterpret_cast<T*>(dst->storage_) = std::move(r)] where [r] refers
    to the live [T] of [src], whose value is [v]. *)
Definition assign_moved (dst src : loc) (v : T) : M unit :=
  d ← deref dst;
  update dst (T_move_assign d v).1.1 ;;
  update src (T_move_assign d v).1.2 ;;
  emit (MoveAssigned dst (T_move_assign d v).1.1) ;;
  raised (T_move_assign d v).2.

(** [optional & operator=(optional &&other)] *)
Definition move_assign (this other : loc) : M unit :=
  e ← get_empty this;
  if e then
    eo ← get_empty other;
    if eo then ret tt
    else
      v ← value other;
      new_moved this other v ;;
      set_empty this false
  else
    eo ← get_empty other;
    if eo then
      destroy this ;;
      set_empty this true
    else
      v ← value other;
      assign_moved this other v.

(** [template<class... Args> void emplace(Args&&... args)] *)
Definition emplace (this : loc) (args : Args) : M unit :=
  e ← get_empty this;
  (if negb e then
     destroy this ;;
     set_empty this true
   else ret tt) ;;
  v' ← constructed (T_construct args);
  placement_new this v' ;;
  set_empty this false.


(** ** The free [operator==] overloads

    They take their arguments by reference to [const] and only read them,
    so they are functions of the two objects' members.  [None] is undefined
    behaviour: [operator*] applied to storage without a live [T].  The
    overloads that write [*lhs], [*rhs] or [*opt] name the [const] overload
    of [operator*]; an overload that the language rejects has no result. *)

Inductive instantiation (A : Type) :=
| Accepted (a : A)
| Rejected.
Global Arguments Accepted {A} a.
Global Arguments Rejected {A}.

Definition instantiate {A} (accepted : bool) (body : A) : instantiation A :=
  if accepted then Accepted body else Rejected.

(** [const T & operator*() const] *)
Definition star (o : optional) : option T :=
  match storage_ o with
  | Live v => Some v
  | Dead => None
  end.

(** [bool operator==(const optional<T> &lhs, const optional<T> &rhs)] *)
Definition eq_optional (lhs rhs : optional) : instantiation (option bool) :=
  instantiate (star_well_formed Const)
    (if negb (Bool.eqb (to_bool lhs) (to_bool rhs)) then Some false
     else if negb (to_bool lhs) && negb (to_bool rhs) then Some true
     else
       match star lhs, star rhs with
       | Some x, Some y => Some (T_eq x y)
       | _, _ => None
       end).

(** [bool operator==(const optional<T> &opt, nullopt_t) noexcept] *)
Definition eq_optional_nullopt (opt : optional) : option bool :=
  Some (negb (to_bool opt)).

(** [bool operator==(nullopt_t, const optional<T> &opt) noexcept] *)
Definition eq_nullopt_optional (opt : optional) : option bool :=
  Some (negb (to_bool opt)).

(** [bool operator==(const optional<T> &opt, const T &value)] *)
Definition eq_optional_value (opt : optional) (val : T) :
    instantiation (option bool) :=
  instantiate (star_well_formed Const)
    (if to_bool opt then
       match star opt with
       | Some x => Some (T_eq x val)
       | None => None
       end
     else Some false).

(** [bool operator==(const T &value, const optional<T> &opt)] *)
Definition eq_value_optional (val : T) (opt : optional) :
    instantiation (option bool) :=
  instantiate (star_well_formed Const)
    (if to_bool opt then
       match star opt with
       | Some x => Some (T_eq x val)
       | None => None
       end
     else Some false).

(** ** Well-formed objects *)

(** The empty object: flag set, raw storage. *)
Definition vacant : optional := mk_optional Dead true.

(** The object that holds [v]: flag clear, [v] alive in the storage. *)
Definition holding (v : T) : optional := mk_optional (Live v) false.

(** Invariant I3: the flag says "occupied" exactly when a [T] lives in the
    storage. *)
Definition consistent (o : optional) : bool :=
  match storage_ o with
  | Dead => empty_ o
  | Live _ => negb (empty_ o)
  end.

(** Every object of the heap is well formed. *)
Definition heap_consistent (s : state) : Prop :=
  map_Forall (λ _ o, consistent o = true) (heap s).

(** The basic guarantee for an operation on [this] and [other] that was
    started in [s] and ended with [r]: the behaviour is defined and,
    whether the operation returned or threw, every object is well formed,
    [this] and [other] still exist, and all other objects are as in [s]. *)
Definition basic_guarantee {A} (s : state) (this other : loc)
    (r : outcome A) : Prop :=
  match r with
  | Done _ s' | Thrown _ s' =>
      heap_consistent s' ∧
      is_Some (heap s' !! this) ∧ is_Some (heap s' !! other) ∧
      ∀ q, q ≠ this → q ≠ other → heap s' !! q = heap s !! q
  | Undefined | Ill_formed => False
  end.

End optional.

(** ** Two contained types

    A model of [std::string] on an allocator that cannot provide more than
    [cap] characters: copying or building a longer string throws
    [bad_alloc], moving steals the buffer and leaves the source empty.
    And a test type for exception safety. *)

Inductive bad_alloc := Bad_alloc.

Definition allocate (cap : nat) (s : string) : bad_alloc + string :=
  if Nat.leb (String.length s) cap then inr s else inl Bad_alloc.

Definition string_ops (cap : nat) : TypeOps string string string bad_alloc := {|
  sizeof_T := 32;
  T_copy := allocate cap;
  T_move v := ("", inr v);
  T_construct := allocate cap;
  T_convert := allocate cap;
  T_via_common := allocate cap;
  T_move_assign _ src := ((src, ""), None);
  T_eq := String.eqb;
|}.

(** Strings of at most four characters can be allocated. *)
#[local] Instance short_strings : TypeOps string string string bad_alloc :=
  string_ops 4.

(** A test type for exception safety: a [nat] whose copies never fail,
    and whose move constructor and move assignment throw, leaving their
    operands as they were, when the value moved from is 0. *)
Inductive poisoned := Poisoned.

#[local] Instance fragile_ops : TypeOps nat nat nat poisoned := {|
  sizeof_T := 8;
  T_copy := inr;
  T_move v := match v with
              | O => (v, inl Poisoned)
              | S _ => (v, inr v)
              end;
  T_construct := inr;
  T_convert := inr;
  T_via_common := inr;
  T_move_assign d v := match v with
                       | O => ((d, v), Some Poisoned)
                       | S _ => ((v, v), None)
                       end;
  T_eq := Nat.eqb;
|}.

(** ** Sample states

    One object at address 1, or two objects at addresses 1 and 2 (the
    [x] and [y] of [optional<std::string> x{...}, y;]), with an empty
    log. *)

Definition one {T} (a : optional T) : state T :=
  mk_state {[ 1%positive := a ]} [].

Definition two {T} (a b : optional T) : state T :=
  mk_state {[ 1%positive := a; 2%positive := b ]} [].

(** * Properties *)

Section properties.
Context {T Args U E : Type} `{!TypeOps T Args U E}.
Local Abbreviation optional := (optional T).
Local Abbreviation state := (state T).
Local Abbreviation outcome := (outcome T E).
Local Abbreviation exn := (exn E).
Local Abbreviation value := (value (T:=T) (E:=E)).
Local Abbreviation value_on_empty := (value_on_empty (E:=E)).
Local Abbreviation assign_nullopt := (assign_nullopt (T:=T) (E:=E)).
Local Abbreviation optional_default := (optional_default (T:=T) (E:=E)).
Local Abbreviation deref := (deref (T:=T) (E:=E)).
Implicit Types (s : state) (o a b : optional) (this other : loc).

Local Open Scope opt_scope.

(** ** Running the primitives *)

Lemma consistent_cases o :
  consistent o = true → o = vacant ∨ ∃ v, o = holding v.
Proof.
  destruct o as [[|v] []]; simpl; intros Hc; try discriminate.
  - by left.
  - right. by exists v.
Qed.

Ltac run_with tac :=
  repeat first
    [ progress (unfold scoped, constructing, release, optional_dtor,
                swap_values, new_moved,
                assign_moved, placement_new, destroy, update, deref,
                set_empty, get_empty, value, emit, store, load, constructed,
                raised, instantiated, bind, ret, throw, undef, ill_formed;
                simpl)
    | rewrite lookup_insert_eq
    | rewrite lookup_insert_ne by tac
    | progress tac ].

Ltac run := run_with ltac:(simplify_map_eq; try done).

(** ** What the language accepts of the header

    The accessors and the call that decide which member functions can be
    instantiated. *)
Lemma accepted_and_rejected :
  star_well_formed Mutable = true ∧ star_well_formed Const = false ∧
  value_well_formed Mutable = true ∧ value_well_formed Const = false ∧
  arrow_well_formed Mutable = true ∧ arrow_well_formed Const = true ∧
  member_call_viable members_named_swap 1 = true ∧
  member_call_viable members_named_swap 2 = false.
Proof. repeat split. Qed.

(** ** Construction establishes the invariant

    Every constructor that returns leaves a well-formed object at [this]:
    [vacant] or [holding v]. *)

Lemma optional_default_run s this :
  optional_default this s =
    Done tt (mk_state (<[this := vacant]> (heap s)) (log s)).
Proof. unfold optional_default. run. Qed.

Lemma optional_of_value_run s this val c :
  T_copy val = inr c →
  optional_of_value this val s =
    Done tt (mk_state (<[this := holding c]> (heap s))
                      (log s ++ [Constructed this c])).
Proof.
  intros Hcp. unfold optional_of_value. run. rewrite Hcp. run.
  by rewrite insert_insert_eq.
Qed.

Lemma optional_in_place_run s this args c :
  T_construct args = inr c →
  optional_in_place this args s =
    Done tt (mk_state (<[this := holding c]> (heap s))
                      (log s ++ [Constructed this c])).
Proof.
  intros Hcp. unfold optional_in_place. run. rewrite Hcp. run.
  by rewrite insert_insert_eq.
Qed.

Lemma emplace_run s this o args c :
  heap s !! this = Some o → consistent o = true →
  T_construct args = inr c →
  emplace this args s =
    Done tt (mk_state (<[this := holding c]> (heap s))
                      (log s ++ match star o with
                                | Some v => [Destroyed this v; Constructed this c]
                                | None => [Constructed this c]
                                end)).
Proof.
  intros Ht Hc Ha.
  destruct (consistent_cases o Hc) as [-> | [v ->]];
    unfold emplace; run; rewrite Ha; run.
  - by rewrite !insert_insert_eq.
  - by rewrite !insert_insert_eq, <- app_assoc.
Qed.

(** ** Move assignment *)

Lemma move_assign_vacant_vacant s this other :
  heap s !! this = Some vacant → heap s !! other = Some vacant →
  move_assign this other s = Done tt s.
Proof.
  intros Ht Ho. unfold move_assign. run.
Qed.

Lemma move_assign_vacant_holding s this other v :
  heap s !! this = Some vacant → heap s !! other = Some (holding v) →
  ∀ r v', T_move v = (r, inr v') →
  move_assign this other s =
    Done tt (mk_state (<[this := holding v']> (<[other := holding r]> (heap s)))
                      (log s ++ [Constructed this v'])).
Proof.
  intros Ht Ho r v' Hm.
  assert (other ≠ this) by (intros ->; rewrite Ht in Ho; discriminate).
  unfold move_assign. run. rewrite Hm. run.
  by rewrite !insert_insert_eq.
Qed.

Lemma move_assign_holding_vacant s this other d :
  heap s !! this = Some (holding d) → heap s !! other = Some vacant →
  move_assign this other s =
    Done tt (mk_state (<[this := vacant]> (heap s)) (log s ++ [Destroyed this d])).
Proof.
  intros Ht Ho. unfold move_assign. run.
  by rewrite insert_insert_eq.
Qed.

Lemma move_assign_holding_holding s this other d v :
  heap s !! this = Some (holding d) → heap s !! other = Some (holding v) →
  ∀ d' r, T_move_assign d v = ((d', r), None) →
  move_assign this other s =
    Done tt (mk_state (<[other := holding r]> (<[this := holding d']> (heap s)))
                      (log s ++ [MoveAssigned this d'])).
Proof.
  intros Ht Ho d' r Hm. unfold move_assign. run. rewrite Hm. run.
  destruct (decide (this = other)) as [->|Hne]; run.
Qed.

(** C4. Move assignment follows the four-case table.  Empty from empty:
    nothing changes.  Empty from occupied: the value that [T]'s move
    constructor builds from the source's value starts to live in the
    destination, which becomes occupied.  Occupied from empty: the
    destination's value is destroyed and the destination becomes empty.
    Occupied from occupied: [T]'s move assignment acts on the destination's
    live value in place; the only event is that assignment, no value is
    destroyed and none is constructed. *)
Theorem move_assign_four_cases s this other :
  (heap s !! this = Some vacant → heap s !! other = Some vacant →
   move_assign this other s = Done tt s) ∧
  (∀ v r v',
   heap s !! this = Some vacant → heap s !! other = Some (holding v) →
   T_move v = (r, inr v') →
   move_assign this other s =
     Done tt (mk_state (<[this := holding v']> (<[other := holding r]> (heap s)))
                       (log s ++ [Constructed this v']))) ∧
  (∀ d,
   heap s !! this = Some (holding d) → heap s !! other = Some vacant →
   move_assign this other s =
     Done tt (mk_state (<[this := vacant]> (heap s))
                       (log s ++ [Destroyed this d]))) ∧
  (∀ d v d' r,
   heap s !! this = Some (holding d) → heap s !! other = Some (holding v) →
   T_move_assign d v = ((d', r), None) →
   move_assign this other s =
     Done tt (mk_state (<[other := holding r]> (<[this := holding d']> (heap s)))
                       (log s ++ [MoveAssigned this d']))).
Proof.
  repeat split.
  - apply move_assign_vacant_vacant.
  - intros v r v' Ht Ho Hm. by eapply move_assign_vacant_holding.
  - intros d. apply move_assign_holding_vacant.
  - intros d v d' r Ht Ho Hm. by eapply move_assign_holding_holding.
Qed.

(** ** Checked access *)


(** ** Access with a fallback *)

(** C8, what the code does.  [value_or] is a [const] member and its
    [**this] names the [const] overload of [operator*], whose
    [reinterpret_cast<T*>(storage_)] casts away [const]: the function is
    ill-formed for every object and every fallback, so it returns neither
    the contained value nor the fallback. *)
Theorem value_or_ill_formed s this (fallback : U) :
  star_well_formed Const = false ∧
  value_or this fallback s = Ill_formed ∧
  ∀ r s', value_or this fallback s ≠ Done r s'.
Proof. repeat split. intros r s'. discriminate. Qed.

(** ** Equality *)

(** C7, what the code does.  The three overloads of [operator==] that
    compare contained values, between two objects and between an object
    and a bare value in either order, apply [operator*] to a reference to
    [const] and are ill-formed for every pair of arguments: they give no
    answer, equal or not.  The two overloads for [nullopt] use only
    [operator bool]: they hold for the empty object and fail for an
    occupied one. *)
Theorem equality_overloads_rejected a b (val : T) :
  eq_optional a b = Rejected ∧
  eq_optional_value a val = Rejected ∧
  eq_value_optional val a = Rejected ∧
  eq_optional_nullopt (vacant (T:=T)) = Some true ∧
  eq_nullopt_optional (vacant (T:=T)) = Some true ∧
  eq_optional_nullopt (holding val) = Some false ∧
  eq_nullopt_optional (holding val) = Some false.
Proof. repeat split. Qed.

(** ** Emplace *)

(** C9. When [T]'s constructor throws in [emplace] on a well-formed
    object, the exception propagates and the object is left empty: flag
    set, no live [T] in the storage.  If it was occupied, its old value was
    destroyed once, before the construction was attempted, and nothing else
    happened.  The destructor of the object then runs without touching the
    storage again. *)
Theorem emplace_throw_leaves_empty s this o args (e : E) :
  heap s !! this = Some o → consistent o = true →
  T_construct args = inl e →
  let s' := mk_state (<[this := vacant]> (heap s))
                     (log s ++ match star o with
                               | Some v => [Destroyed this v]
                               | None => []
                               end) in
  emplace this args s = Thrown (T_exception e) s' ∧
  optional_dtor this s' = Done tt s'.
Proof.
  intros Ht Hc Ha.
  destruct (consistent_cases o Hc) as [-> | [v ->]];
    unfold emplace, optional_dtor; run; rewrite Ha; run.
  - by rewrite (insert_id _ _ _ Ht), app_nil_r; destruct s.
  - by rewrite insert_insert_eq.
Qed.

(** ** Swap *)

(** With exactly one side occupied, [in] is the address of the empty side
    and [un] the address of the occupied one. *)
Lemma swap_in_un_selection s this other a b :
  heap s !! this = Some a → heap s !! other = Some b →
  empty_ a ≠ empty_ b →
  (∃ o, heap s !! swap_in this other (empty_ a) = Some o ∧ empty_ o = true) ∧
  (∃ o, heap s !! swap_un this other (empty_ a) = Some o ∧ empty_ o = false).
Proof.
  intros Ht Ho Hne. unfold swap_in, swap_un.
  destruct (empty_ a) eqn:Ea, (empty_ b) eqn:Eb; try done; split; eauto.
Qed.

(** C1, what the code does.  When exactly one of the two well-formed
    objects is occupied, whichever side it is, [swap] reads a [T] out of
    the storage of the empty object: undefined behaviour. *)
Theorem swap_one_occupied_undefined s this other v :
  (heap s !! this = Some (holding v) ∧ heap s !! other = Some vacant) ∨
  (heap s !! this = Some vacant ∧ heap s !! other = Some (holding v)) →
  swap this other s = Undefined.
Proof.
  intros [[Ht Ho] | [Ht Ho]]; unfold swap; run.
Qed.

(** ** Copy assignment *)

Lemma copy_assign_never s this other : copy_assign this other s = Ill_formed.
Proof. reflexivity. Qed.

(** C5, what the code does.  Copy assignment is ill-formed for every
    target and source: its first statement [optional tmp{other}] is the
    copy constructor, whose [other.value()] names the [const] overload of
    [value] and with it the [const] [operator*] that casts away [const].
    [T]'s copy constructor is never reached, so no exception of it
    propagates out of a copy assignment, with the target unchanged or
    otherwise. *)
Theorem copy_assign_no_throwing_copy s this other :
  value_well_formed Const = false ∧
  (∀ tmp, optional_copy tmp other s = Ill_formed) ∧
  copy_assign this other s = Ill_formed ∧
  ∀ e s', copy_assign this other s ≠ Thrown e s'.
Proof.
  split; [done|]. split; [done|]. split; [apply copy_assign_never|].
  intros e s'. by rewrite copy_assign_never.
Qed.

(** C2, what the code does.  Copy assignment is ill-formed for every
    target and source, in every combination of occupied and empty: no
    assignment takes place.  And its second statement [swap(tmp)], on a
    target and a temporary of which exactly one is occupied, is the branch
    of [swap] that reads a [T] out of the storage of the empty object:
    undefined behaviour. *)
Theorem copy_assign_ill_formed s this other :
  copy_assign this other s = Ill_formed ∧
  ∀ s1 tmp v,
    (heap s1 !! this = Some vacant ∧ heap s1 !! tmp = Some (holding v)) ∨
    (heap s1 !! this = Some (holding v) ∧ heap s1 !! tmp = Some vacant) →
    swap this tmp s1 = Undefined.
Proof.
  split; [apply copy_assign_never|].
  intros s1 tmp v [[Ht Ho] | [Ht Ho]]; unfold swap; run.
Qed.

(** C10, what the code does.  Copy self-assignment [a = a] is ill-formed
    like every copy assignment: it does not return, for an empty [a] or an
    occupied one. *)
Theorem copy_self_assign_ill_formed s this :
  copy_assign this this s = Ill_formed ∧
  ∀ s', copy_assign this this s ≠ Done tt s'.
Proof.
  split; [apply copy_assign_never|].
  intros s'. by rewrite copy_assign_never.
Qed.

(** ** Move construction *)

Lemma assign_nullopt_holding s this v :
  heap s !! this = Some (holding v) →
  assign_nullopt this s =
    Done tt (mk_state (<[this := vacant]> (heap s)) (log s ++ [Destroyed this v])).
Proof.
  intros Ht. unfold assign_nullopt. run. by rewrite insert_insert_eq.
Qed.

Lemma optional_dtor_holding s this v :
  heap s !! this = Some (holding v) →
  optional_dtor this s =
    Done tt (mk_state (<[this := mk_optional Dead false]> (heap s))
                      (log s ++ [Destroyed this v])).
Proof. intros Ht. run. Qed.

(** C3, amended.  Move construction from an occupied source, when [T]'s
    move constructor hands the source's value [v] over and leaves [r]
    behind: the new object is occupied and holds [v]; the source is not
    emptied, it stays occupied and holds [r].  The source remains well
    formed, so its destructor destroys [r] once, assigning [nullopt] to it
    destroys [r] and leaves it empty, and move-assigning an occupied object
    to it acts on [r] in place. *)
Theorem move_ctor_source_stays_occupied s this other v r :
  heap s !! this = None → heap s !! other = Some (holding v) →
  T_move v = (r, inr v) →
  let s' := mk_state (<[this := holding v]> (<[other := holding r]> (heap s)))
                     (log s ++ [Constructed this v]) in
  optional_move this other s = Done tt s' ∧
  heap s' !! this = Some (holding v) ∧
  heap s' !! other = Some (holding r) ∧
  consistent (holding r) = true ∧
  optional_dtor other s' =
    Done tt (mk_state (<[other := mk_optional Dead false]> (heap s'))
                      (log s' ++ [Destroyed other r])) ∧
  assign_nullopt other s' =
    Done tt (mk_state (<[other := vacant]> (heap s'))
                      (log s' ++ [Destroyed other r])) ∧
  (∀ r' v', T_move_assign r v = ((r', v'), None) →
     move_assign other this s' =
       Done tt (mk_state (<[this := holding v']> (<[other := holding r']> (heap s')))
                         (log s' ++ [MoveAssigned other r']))).
Proof.
  intros Ht Ho Hm s'.
  assert (other ≠ this) as Hne by (intros ->; congruence).
  assert (heap s' !! this = Some (holding v)) as Ht'
    by (subst s'; simpl; by rewrite lookup_insert_eq).
  assert (heap s' !! other = Some (holding r)) as Ho'
    by (subst s'; simpl; rewrite lookup_insert_ne by done;
        by rewrite lookup_insert_eq).
  split.
  { unfold optional_move. run. rewrite Hm. run.
    subst s'. f_equal. f_equal.
    rewrite (insert_insert_ne _ other this) by done.
    by rewrite insert_insert_eq. }
  split; [done|]. split; [done|]. split; [done|].
  split; [by apply optional_dtor_holding|].
  split; [by apply assign_nullopt_holding|].
  intros r' v' Hma. by eapply move_assign_holding_holding.
Qed.

(** * Further properties of the member functions *)

Lemma state_eta s : mk_state (heap s) (log s) = s.
Proof. by destruct s. Qed.

(** ** Constructors *)

(** X1. Construction on unused memory.  A default-constructed object is
    empty: [value] on it throws and nothing was constructed.  An object
    built from a value or in place is occupied, and [value] returns the
    [T] that [T]'s copy constructor, respectively [T]'s constructor from
    the arguments, built.  When that constructor throws, no object exists
    afterwards and the state is the one before. *)
Theorem constructors_then_value s this (val : T) (args : Args) :
  heap s !! this = None →
  (bind (optional_default this) (λ _, value this) s =
     Thrown value_on_empty (mk_state (<[this := vacant]> (heap s)) (log s))) ∧
  (∀ c, T_copy val = inr c →
     bind (optional_of_value this val) (λ _, value this) s =
       Done c (mk_state (<[this := holding c]> (heap s))
                        (log s ++ [Constructed this c]))) ∧
  (∀ e, T_copy val = inl e →
     optional_of_value this val s = Thrown (T_exception e) s) ∧
  (∀ c, T_construct args = inr c →
     bind (optional_in_place this args) (λ _, value this) s =
       Done c (mk_state (<[this := holding c]> (heap s))
                        (log s ++ [Constructed this c]))) ∧
  (∀ e, T_construct args = inl e →
     optional_in_place this args s = Thrown (T_exception e) s).
Proof.
  intros Ht. split; [|split; [|split; [|split]]].
  - unfold bind at 1. rewrite optional_default_run. unfold value. run.
  - intros c Hc. unfold bind at 1. rewrite (optional_of_value_run _ _ _ c Hc).
    unfold value. run.
  - intros e He. unfold optional_of_value. run. rewrite He. run.
    by rewrite delete_insert_id, state_eta.
  - intros c Hc. unfold bind at 1. rewrite (optional_in_place_run _ _ _ c Hc).
    unfold value. run.
  - intros e He. unfold optional_in_place. run. rewrite He. run.
    by rewrite delete_insert_id, state_eta.
Qed.

(** X4. Move construction on unused memory, the two cases next to the
    regular one.  From an empty source: the new object is empty, no [T] is
    touched.  From an occupied source whose value [T]'s move constructor
    fails to move: the exception propagates, no object exists at [this],
    and the source stays occupied with whatever the failed move left. *)
Theorem move_ctor_edge_cases s this other :
  heap s !! this = None →
  (heap s !! other = Some vacant →
     optional_move this other s =
       Done tt (mk_state (<[this := vacant]> (heap s)) (log s))) ∧
  (∀ v r e, heap s !! other = Some (holding v) → T_move v = (r, inl e) →
     optional_move this other s =
       Thrown (T_exception e)
              (mk_state (<[other := holding r]> (heap s)) (log s))).
Proof.
  intros Ht. split.
  - intros Ho. unfold optional_move. run.
  - intros v r e Ho Hm.
    assert (this ≠ other) by (intros ->; congruence).
    unfold optional_move. run. rewrite Hm. run.
    rewrite delete_insert_ne by done.
    rewrite delete_insert_id by done. done.
Qed.

(** ** Destruction and clearing *)

Lemma dtor_release_run s this o :
  heap s !! this = Some o → consistent o = true →
  bind (optional_dtor this) (λ _, release this) s =
    Done tt (mk_state (delete this (heap s))
                      (log s ++ match star o with
                                | Some v => [Destroyed this v]
                                | None => []
                                end)).
Proof.
  intros Ht Hc.
  destruct (consistent_cases o Hc) as [-> | [v ->]]; run.
  - by rewrite app_nil_r.
  - by rewrite delete_insert_eq.
Qed.

(** X5. The destructor of a well-formed object, followed by the release
    of its memory: it destroys the contained value exactly once when the
    object is occupied, and touches no [T] when it is empty; the object is
    gone and the other objects are as before. *)
Theorem dtor_destroys_once s this o :
  heap s !! this = Some o → consistent o = true →
  bind (optional_dtor this) (λ _, release this) s =
    Done tt (mk_state (delete this (heap s))
                      (log s ++ match star o with
                                | Some v => [Destroyed this v]
                                | None => []
                                end)).
Proof. apply dtor_release_run. Qed.

(** X6. A whole lifetime: an object built in place on unused memory,
    re-filled once with [emplace], then destroyed and released.  The heap
    is the one before, and the log is balanced: each of the two values was
    constructed and then destroyed once, the first before the second was
    constructed. *)
Theorem lifetime_balanced s this (args args' : Args) c c' :
  heap s !! this = None →
  T_construct args = inr c → T_construct args' = inr c' →
  bind (optional_in_place this args) (λ _,
  bind (emplace this args') (λ _,
  bind (optional_dtor this) (λ _, release this))) s =
    Done tt (mk_state (heap s)
                      (log s ++ [Constructed this c; Destroyed this c;
                                 Constructed this c'; Destroyed this c'])).
Proof.
  intros Ht Hc Hc'.
  unfold bind at 1. rewrite (optional_in_place_run _ _ _ c Hc).
  unfold bind at 1.
  rewrite (emplace_run _ this (holding c) args' c') by (simpl; by simplify_map_eq).
  simpl.
  rewrite (dtor_release_run _ this (holding c')) by (simpl; by simplify_map_eq).
  simpl. rewrite !insert_insert_eq, delete_insert_id by done.
  by rewrite <- !app_assoc.
Qed.

(** X7. Assigning [nullopt] to a well-formed object returns, leaves the
    object empty, so that it compares equal to [nullopt], and destroys the
    contained value exactly once if there was one.  Assigning [nullopt]
    again changes nothing. *)
Theorem assign_nullopt_idempotent s this o :
  heap s !! this = Some o → consistent o = true →
  let s' := mk_state (<[this := vacant]> (heap s))
                     (log s ++ match star o with
                               | Some v => [Destroyed this v]
                               | None => []
                               end) in
  assign_nullopt this s = Done tt s' ∧
  assign_nullopt this s' = Done tt s' ∧
  eq_optional_nullopt (vacant (T:=T)) = Some true.
Proof.
  intros Ht Hc.
  destruct (consistent_cases o Hc) as [-> | [v ->]]; simpl;
    unfold assign_nullopt; run; rewrite ?app_nil_r, ?insert_insert_eq; done.
Qed.

(** ** Emplace *)

(** X8. [emplace] on a well-formed object, when [T]'s constructor
    returns [c]: the object is occupied and [value] returns [c]; a value
    held before was destroyed once, before [c] was constructed; the other
    objects are as before. *)
Theorem emplace_then_value s this o args c :
  heap s !! this = Some o → consistent o = true →
  T_construct args = inr c →
  bind (emplace this args) (λ _, value this) s =
    Done c (mk_state (<[this := holding c]> (heap s))
                     (log s ++ match star o with
                               | Some v => [Destroyed this v; Constructed this c]
                               | None => [Constructed this c]
                               end)).
Proof.
  intros Ht Hc Ha. unfold bind at 1.
  rewrite (emplace_run s this o args c Ht Hc Ha). unfold value. run.
Qed.

(** ** Unchecked access *)


(** ** Move assignment when [T] throws *)

(** X13. Move assignment when an operation of [T] throws.  Empty target,
    occupied source, [T]'s move constructor throws: the target is still
    empty and the source still occupied, with what the failed move left.
    Occupied target and source, [T]'s move assignment throws: both are
    still occupied, with what the failed assignment left; no value was
    destroyed or constructed. *)
Theorem move_assign_throw s this other :
  (∀ v r e, heap s !! this = Some vacant → heap s !! other = Some (holding v) →
     T_move v = (r, inl e) →
     move_assign this other s =
       Thrown (T_exception e)
              (mk_state (<[other := holding r]> (heap s)) (log s))) ∧
  (∀ d v d' r e,
     heap s !! this = Some (holding d) → heap s !! other = Some (holding v) →
     T_move_assign d v = ((d', r), Some e) →
     move_assign this other s =
       Thrown (T_exception e)
              (mk_state (<[other := holding r]> (<[this := holding d']> (heap s)))
                        (log s ++ [MoveAssigned this d']))).
Proof.
  split.
  - intros v r e Ht Ho Hm.
    assert (other ≠ this) by (intros ->; rewrite Ht in Ho; discriminate).
    unfold move_assign. run. rewrite Hm. run.
  - intros d v d' r e Ht Ho Hm. unfold move_assign. run. rewrite Hm. run.
    destruct (decide (this = other)) as [->|Hne]; run.
Qed.

(** ** The basic guarantee *)

Lemma heap_consistent_lookup s p o :
  heap_consistent s → heap s !! p = Some o → consistent o = true.
Proof. intros Hs Hp. exact (Hs p o Hp). Qed.

Ltac split_T_ops :=
  repeat match goal with
  | |- context [T_construct ?x] => destruct (T_construct x) as [?|?]
  | |- context [T_copy ?x] => destruct (T_copy x) as [?|?]
  | |- context [T_move ?x] => destruct (T_move x) as [? [?|?]]
  | |- context [T_move_assign ?x ?y] =>
      destruct (T_move_assign x y) as [[? ?] [?|]]
  end.

Ltac settle Hs this other :=
  unfold basic_guarantee, heap_consistent; simpl;
  split;
    [ let i := fresh "i" in let x := fresh "x" in let Hi := fresh "Hi" in
      intros i x Hi;
      destruct (decide (i = this)) as [->|];
        [ by simplify_map_eq
        | destruct (decide (i = other)) as [->|];
            [ by simplify_map_eq
            | simplify_map_eq; by eapply Hs ] ]
    | split; [by simplify_map_eq|];
      split; [by simplify_map_eq|];
      intros q ? ?; by simplify_map_eq ].


(** X15. Move assignment between objects of a heap of well-formed
    objects (the same object included) has defined behaviour, and whether
    it returns or an operation of [T] throws, every object is well formed
    afterwards and no object other than [this] and [other] has changed. *)
Theorem move_assign_basic_guarantee s this other a b :
  heap_consistent s → heap s !! this = Some a → heap s !! other = Some b →
  basic_guarantee s this other (move_assign this other s).
Proof.
  intros Hs Ht Ho.
  pose proof (heap_consistent_lookup s this a Hs Ht) as Ha.
  pose proof (heap_consistent_lookup s other b Hs Ho) as Hb.
  destruct (decide (this = other)) as [<-|Hne].
  - simplify_eq.
    destruct (consistent_cases a Ha) as [-> | [v ->]];
      unfold move_assign; run; split_T_ops; run; settle Hs this this.
  - destruct (consistent_cases a Ha) as [-> | [d ->]],
             (consistent_cases b Hb) as [-> | [v ->]];
      unfold move_assign; run; split_T_ops; run; settle Hs this other.
Qed.

End properties.

(** * The properties on [std::string] objects *)

Local Open Scope positive_scope.

(** The second scenario of the specification,
    [optional<std::string> x{"hi"}, y; x.swap(y);], and [y.swap(x)]. *)
Lemma swap_one_occupied_undefined_witness :
  swap 1 2 (two (holding "hi") vacant) = Undefined ∧
  swap 2 1 (two (holding "hi") vacant) = Undefined.
Proof.
  split.
  - apply (swap_one_occupied_undefined _ 1 2 "hi"). left. split; reflexivity.
  - apply (swap_one_occupied_undefined _ 2 1 "hi"). right. split; reflexivity.
Defined.

(** [x = y] for an empty [x] and [y] holding "hi"; and [swap] of [x]
    with an object at address 3 that holds the copy of "hi". *)
Lemma copy_assign_ill_formed_witness :
  copy_assign 1 2 (two vacant (holding "hi")) = Ill_formed ∧
  swap 1 3 (mk_state {[ 1 := vacant; 2 := holding "hi"; 3 := holding "hi" ]} [])
    = Undefined.
Proof.
  split.
  - exact (proj1 (copy_assign_ill_formed (two vacant (holding "hi")) 1 2)).
  - apply (proj2 (copy_assign_ill_formed (two vacant (holding "hi")) 1 2)
             (mk_state {[ 1 := vacant; 2 := holding "hi"; 3 := holding "hi" ]} [])
             3 "hi").
    left. split; reflexivity.
Defined.

(** C3 as stated fails: after move construction of a new object at
    address 2 from the object at address 1 that holds "hi", the source is
    still occupied (it holds the moved-from string). *)
Lemma move_ctor_source_not_emptied :
  optional_move 2 1 (one (holding "hi")) =
    Done tt (mk_state {[ 1 := holding ""; 2 := holding "hi" ]}
                      [Constructed 2 "hi"]) ∧
  to_bool (holding "") = true.
Proof. split; reflexivity. Defined.

(** Move construction at address 2 from the object that holds "hi". *)
Lemma move_ctor_source_stays_occupied_witness :
  heap (one (holding "hi")) !! 2 = None ∧
  heap (one (holding "hi")) !! 1 = Some (holding "hi") ∧
  T_move "hi" = ("", inr "hi") ∧
  optional_move 2 1 (one (holding "hi")) =
    Done tt (mk_state (<[2 := holding "hi"]> (<[1 := holding ""]> {[ 1 := holding "hi" ]}))
                      [Constructed 2 "hi"]).
Proof.
  split; [reflexivity|]. split; [reflexivity|]. split; [reflexivity|].
  apply (move_ctor_source_stays_occupied (one (holding "hi")) 2 1 "hi" "");
    reflexivity.
Defined.

(** The four cases of [x = std::move(y)] on strings. *)
Lemma move_assign_four_cases_witness :
  move_assign 1 2 (two vacant vacant) = Done tt (two vacant vacant) ∧
  move_assign 1 2 (two vacant (holding "hi")) =
    Done tt (mk_state (<[1 := holding "hi"]> (<[2 := holding ""]>
                         (heap (two vacant (holding "hi")))))
                      [Constructed 1 "hi"]) ∧
  move_assign 1 2 (two (holding "old") vacant) =
    Done tt (mk_state (<[1 := vacant]> (heap (two (holding "old") vacant)))
                      [Destroyed 1 "old"]) ∧
  move_assign 1 2 (two (holding "old") (holding "hi")) =
    Done tt (mk_state (<[2 := holding ""]> (<[1 := holding "hi"]>
                         (heap (two (holding "old") (holding "hi")))))
                      [MoveAssigned 1 "hi"]).
Proof.
  split; [|split; [|split]].
  - exact (proj1 (move_assign_four_cases (two vacant vacant) 1 2)
             eq_refl eq_refl).
  - exact (proj1 (proj2 (move_assign_four_cases (two vacant (holding "hi")) 1 2))
             "hi" "" "hi" eq_refl eq_refl eq_refl).
  - exact (proj1 (proj2 (proj2
             (move_assign_four_cases (two (holding "old") vacant) 1 2)))
             "old" eq_refl eq_refl).
  - exact (proj2 (proj2 (proj2
             (move_assign_four_cases (two (holding "old") (holding "hi")) 1 2)))
             "old" "hi" "hi" "" eq_refl eq_refl eq_refl).
Defined.


(** [x.emplace("too long")] for [x] holding "hi": the allocation fails
    after "hi" was destroyed. *)
Lemma emplace_throw_leaves_empty_witness :
  heap (one (holding "hi")) !! 1 = Some (holding "hi") ∧
  consistent (holding "hi") = true ∧
  T_construct "too long" = inl Bad_alloc ∧
  emplace 1 "too long" (one (holding "hi")) =
    Thrown (T_exception Bad_alloc)
           (mk_state (<[1 := vacant]> (heap (one (holding "hi"))))
                     [Destroyed 1 "hi"]).
Proof.
  split; [reflexivity|]. split; [reflexivity|]. split; [reflexivity|].
  exact (proj1 (emplace_throw_leaves_empty (one (holding "hi")) 1 (holding "hi")
                  "too long" Bad_alloc eq_refl eq_refl eq_refl)).
Defined.

(** * The further properties on concrete objects *)

Lemma heap_consistent_two {T} (a b : optional T) :
  consistent a = true → consistent b = true → heap_consistent (two a b).
Proof.
  intros Ha Hb. unfold heap_consistent, two. simpl.
  apply map_Forall_insert_2; [done|]. by apply map_Forall_singleton.
Qed.

(** Construction of an [optional<std::string>] at address 1 of the empty
    heap, from "hi" and from a string that cannot be allocated. *)
Lemma constructors_then_value_witness :
  bind (optional_of_value 1 "hi") (λ _, value 1) (mk_state ∅ []) =
    Done "hi" (mk_state (<[1 := holding "hi"]> ∅) [Constructed 1 "hi"]) ∧
  optional_in_place 1 "too long" (mk_state ∅ []) =
    Thrown (T_exception Bad_alloc) (mk_state ∅ []).
Proof.
  split.
  - exact (proj1 (proj2 (constructors_then_value (mk_state ∅ []) 1 "hi" "hi"
                           eq_refl)) "hi" eq_refl).
  - exact (proj2 (proj2 (proj2 (proj2
             (constructors_then_value (mk_state ∅ []) 1 "hi" "too long"
                eq_refl)))) Bad_alloc eq_refl).
Defined.

(** Move construction at address 3 from the empty object at 1, and from
    the object at 2 whose value 0 cannot be moved. *)
Lemma move_ctor_edge_cases_witness :
  optional_move 3 1 (two vacant (holding 0%nat)) =
    Done tt (mk_state (<[3 := vacant]> (heap (two vacant (holding 0%nat)))) []) ∧
  optional_move 3 2 (two vacant (holding 0%nat)) =
    Thrown (T_exception Poisoned)
           (mk_state (<[2 := holding 0%nat]> (heap (two vacant (holding 0%nat)))) []).
Proof.
  split.
  - exact (proj1 (move_ctor_edge_cases (two vacant (holding 0%nat)) 3 1 eq_refl)
             eq_refl).
  - exact (proj2 (move_ctor_edge_cases (two vacant (holding 0%nat)) 3 2 eq_refl)
             0%nat 0%nat Poisoned eq_refl eq_refl).
Defined.

(** The end of the lifetime of [x] holding "hi". *)
Lemma dtor_destroys_once_witness :
  bind (optional_dtor 1) (λ _, release 1) (two (holding "hi") vacant) =
    Done tt (mk_state (delete 1 (heap (two (holding "hi") vacant)))
                      [Destroyed 1 "hi"]).
Proof.
  exact (dtor_destroys_once (two (holding "hi") vacant) 1 (holding "hi")
           eq_refl eq_refl).
Defined.

(** [{ optional<std::string> x{in_place, "hi"}; x.emplace("yo"); }] *)
Lemma lifetime_balanced_witness :
  bind (optional_in_place 1 "hi") (λ _,
  bind (emplace 1 "yo") (λ _,
  bind (optional_dtor 1) (λ _, release 1))) (mk_state ∅ []) =
    Done tt (mk_state ∅ [Constructed 1 "hi"; Destroyed 1 "hi";
                         Constructed 1 "yo"; Destroyed 1 "yo"]).
Proof.
  exact (lifetime_balanced (mk_state ∅ []) 1 "hi" "yo" "hi" "yo"
           eq_refl eq_refl eq_refl).
Defined.

(** [x = nullopt; x = nullopt;] for [x] holding "hi". *)
Lemma assign_nullopt_idempotent_witness :
  assign_nullopt (E:=bad_alloc) 1 (one (holding "hi")) =
    Done tt (mk_state (<[1 := vacant]> (heap (one (holding "hi"))))
                      [Destroyed 1 "hi"]) ∧
  assign_nullopt (E:=bad_alloc) 1
      (mk_state (<[1 := vacant]> (heap (one (holding "hi"))))
                [Destroyed 1 "hi"]) =
    Done tt (mk_state (<[1 := vacant]> (heap (one (holding "hi"))))
                      [Destroyed 1 "hi"]).
Proof.
  pose proof (assign_nullopt_idempotent (E:=bad_alloc) (one (holding "hi")) 1
                (holding "hi") eq_refl eq_refl) as (H1 & H2 & _).
  exact (conj H1 H2).
Defined.

(** [x.emplace("yo"); x.value()] for [x] holding "hi". *)
Lemma emplace_then_value_witness :
  bind (emplace 1 "yo") (λ _, value 1) (one (holding "hi")) =
    Done "yo" (mk_state (<[1 := holding "yo"]> (heap (one (holding "hi"))))
                        [Destroyed 1 "hi"; Constructed 1 "yo"]).
Proof.
  exact (emplace_then_value (one (holding "hi")) 1 (holding "hi") "yo" "yo"
           eq_refl eq_refl eq_refl).
Defined.


(** [x = std::move(y)] on the test type, for [y] holding the value 0 that
    cannot be moved, into an empty [x] and into [x] holding 5. *)
Lemma move_assign_throw_witness :
  move_assign 1 2 (two vacant (holding 0%nat)) =
    Thrown (T_exception Poisoned)
           (mk_state (<[2 := holding 0%nat]> (heap (two vacant (holding 0%nat))))
                     []) ∧
  move_assign 1 2 (two (holding 5%nat) (holding 0%nat)) =
    Thrown (T_exception Poisoned)
           (mk_state (<[2 := holding 0%nat]> (<[1 := holding 5%nat]>
                        (heap (two (holding 5%nat) (holding 0%nat)))))
                     [MoveAssigned 1 5%nat]).
Proof.
  split.
  - exact (proj1 (move_assign_throw (two vacant (holding 0%nat)) 1 2)
             0%nat 0%nat Poisoned eq_refl eq_refl eq_refl).
  - exact (proj2 (move_assign_throw (two (holding 5%nat) (holding 0%nat)) 1 2)
             5%nat 0%nat 5%nat 0%nat Poisoned eq_refl eq_refl eq_refl).
Defined.


(** [x = std::move(y)] on the test type, for [x] holding 5 and [y]
    holding 0. *)
Lemma move_assign_basic_guarantee_witness :
  basic_guarantee (two (holding 5%nat) (holding 0%nat)) 1 2
    (move_assign 1 2 (two (holding 5%nat) (holding 0%nat))).
Proof.
  apply (move_assign_basic_guarantee (two (holding 5%nat) (holding 0%nat)) 1 2
           (holding 5%nat) (holding 0%nat)); [|reflexivity|reflexivity].
  by apply heap_consistent_two.
Defined.
